(** * logrus-logstash-hook: a shallow embedding of the hook and its legacy variant

    The Go package [logrus_logstash] forwards logrus entries to a Logstash
    instance.  This development embeds the two source files of the package,

    - the options-based hook ([Options], [validOptions], [New], [Fire],
      [Levels]), at top level, and
    - [legacy.go] ([LegacyHook] and its constructors and methods), in
      [Module Legacy],

    and states the properties of the specification over them.

    Modelling conventions.
    - [logrus.Fields] (a Go [map[string]interface{}]) is a [gmap string Value].
      A [range] loop over a map is a fold over an enumeration of the map; Go
      leaves the order unspecified, and the lemmas below are proved for every
      enumeration order.
    - An entry handed to a hook carries an allocated [Data] map (logrus
      allocates it in [NewEntry] and [WithFields]).
    - A Go [error] is its message; the [nil] error is [None].
    - A call of [Fire] yields the entry as it is when [Fire] is left, the
      calls made on the formatter and on the connection, in order, and the way
      [Fire] is left: by returning an error value, or by a run-time panic
      (calling a method through a nil interface).
    - What the two files take from elsewhere ([net.Dial], [json.Marshal], and
      [FormatWithPrefix] of the legacy formatter, which has a file of its own)
      is gathered in the class [Externals]. *)

From stdpp Require Import base gmap strings list fin_maps pretty.

Local Open Scope string_scope.

(** ** Go values and errors *)

(** A representative tagged union for [interface{}] field values. *)
Inductive Value : Type :=
  | VNil
  | VBool (b : bool)
  | VInt (n : Z)
  | VString (s : string)
  | VError (msg : string)
  | VChan.

(** [errors.New(msg)]; [Error] reads the message back. *)
Inductive error : Type :=
  | errors_New (msg : string).

Definition Error (e : error) : string :=
  match e with errors_New msg => msg end.

(** [[]byte] *)
Abbreviation bytes := string (only parsing).

(** [strings.HasPrefix(s, prefix)]:
    [len(s) >= len(prefix) && s[0:len(prefix)] == prefix]. *)
Definition strings_HasPrefix (s prefix : string) : bool :=
  (String.length prefix <=? String.length s)%nat
  && String.eqb (String.substring 0 (String.length prefix) s) prefix.

(** [io.Writer]: the result of [Write(p)].  [net.Conn] is used through its
    [Write] method only. *)
Record io_Writer : Type := mkWriter {
  Write : bytes -> Z * option error
}.

Abbreviation net_Conn := io_Writer (only parsing).

(** ** The parts of [time] and [logrus] the package uses *)

Module time.

(** A UTC wall-clock reading. *)
Record Time : Type := mkTime {
  Year : nat; Month : nat; Day : nat;
  Hour : nat; Minute : nat; Second : nat
}.

(** [time.Time{}]: January 1, year 1, 00:00:00 UTC. *)
Definition zero : Time := mkTime 1 1 1 0 0 0.

Fixpoint zeros (n : nat) : string :=
  match n with
  | O => EmptyString
  | S n' => "0" +:+ zeros n'
  end.

Definition pad (width n : nat) : string :=
  let s := pretty n in
  zeros (width - String.length s) +:+ s.

(** [t.Format(time.RFC3339)] for a UTC time. *)
Definition Format_RFC3339 (t : Time) : string :=
  pad 4 (Year t) +:+ "-" +:+ pad 2 (Month t) +:+ "-" +:+ pad 2 (Day t)
  +:+ "T" +:+ pad 2 (Hour t) +:+ ":" +:+ pad 2 (Minute t) +:+ ":"
  +:+ pad 2 (Second t) +:+ "Z".

End time.

Module logrus.

Inductive Level : Type :=
  | PanicLevel
  | FatalLevel
  | ErrorLevel
  | WarnLevel
  | InfoLevel
  | DebugLevel.

(** [Level.String()] *)
Definition Level_String (l : Level) : string :=
  match l with
  | PanicLevel => "panic"
  | FatalLevel => "fatal"
  | ErrorLevel => "error"
  | WarnLevel => "warning"
  | InfoLevel => "info"
  | DebugLevel => "debug"
  end.

Abbreviation Fields := (gmap string Value) (only parsing).

Record Entry : Type := mkEntry {
  Data : Fields;
  Time : time.Time;
  Level_ : Level;
  Message : string
}.

(** The entry with its [Data] map in state [d]. *)
Definition with_Data (e : Entry) (d : Fields) : Entry :=
  mkEntry d (Time e) (Level_ e) (Message e).

(** [Formatter.Format(entry) ([]byte, error)]; formatting reads the entry. *)
Definition Formatter : Type := Entry -> bytes * option error.

End logrus.

(** ** What a call of [Fire] does *)

Inductive Effect : Type :=
  | Formatted
  | Wrote (p : bytes).

Inductive Outcome : Type :=
  | Returned (err : option error)
  | Panicked.

Record Fired : Type := mkFired {
  entry_after : logrus.Entry;
  effects : list Effect;
  outcome : Outcome
}.

(** ** External collaborators *)

Record LogstashFormatter : Type := mkLogstashFormatter {
  Type_ : string
}.

Class Externals : Type := {
  (** [net.Dial(protocol, address)] *)
  net_Dial : string -> string -> net_Conn + error;
  (** [json.Marshal] of a field mapping *)
  json_Marshal : logrus.Fields -> bytes * option error;
  (** [LogstashFormatter.FormatWithPrefix(entry, prefix)] *)
  FormatWithPrefix : LogstashFormatter -> logrus.Entry -> string -> bytes * option error
}.

(** ** [range] loops over field mappings *)

(** [for k, v := range src { if _, ok := data[k]; !ok { data[k] = v } }],
    the keys of [src] being visited in the order of [kvs]. *)
Fixpoint merge_missing (kvs : list (string * Value)) (data : logrus.Fields)
  : logrus.Fields :=
  match kvs with
  | [] => data
  | (k, v) :: rest =>
      merge_missing rest
        (match data !! k with
         | None => <[k := v]> data
         | Some _ => data
         end)
  end.

(** [for key := range data { if strings.HasPrefix(key, prefix) { delete(data, key) } }],
    the keys being visited in the order of [keys]. *)
Fixpoint delete_prefixed (prefix : string) (keys : list string)
    (data : logrus.Fields) : logrus.Fields :=
  match keys with
  | [] => data
  | key :: rest =>
      delete_prefixed prefix rest
        (if strings_HasPrefix key prefix then delete key data else data)
  end.

(** ** The hook *)

Record Hook : Type := mkHook {
  conn : option io_Writer;
  ctx : logrus.Fields;
  formatter : option logrus.Formatter
}.

Record Options : Type := mkOptions {
  Conn : option io_Writer;
  Protocol : string;
  Address : string;
  AppName : string;
  Fields : option logrus.Fields;
  Formatter : option logrus.Formatter
}.

(** [x == nil] for a value of interface or map type *)
Definition is_nil {A : Type} (x : option A) : bool :=
  match x with
  | None => true
  | Some _ => false
  end.

Definition validOptions (opts : Options) : option error :=
  if is_nil (Conn opts)
     && (String.eqb (Address opts) EmptyString || String.eqb (Protocol opts) EmptyString)
  then Some (errors_New "Missing connection details")
  else if negb (is_nil (Conn opts))
     && (negb (String.eqb (Address opts) EmptyString)
         || negb (String.eqb (Protocol opts) EmptyString))
  then Some (errors_New "Specify Conn or Address and Protocol")
  else if negb (String.eqb (AppName opts) EmptyString)
     && negb (is_nil (Formatter opts))
  then Some (errors_New "Specify AppName or Formatter")
  else None.

Definition newline : string := String (Ascii.ascii_of_nat 10) EmptyString.

(** Modelled from the spec: the field mapping the default formatter
    serializes.  The file defining [defaultFormatter] is not among the sources;
    the spec describes its output as the entry's field mapping plus the five
    reserved keys [@timestamp] (RFC3339), [@version] (schema version), [@level]
    (string form of the severity), [@message] and [type] (application name),
    the reserved keys being computed last, so that no user field overrides
    them. *)
Definition logstash_fields (appName version : string) (e : logrus.Entry)
  : logrus.Fields :=
  <["@version" := VString version]>
    (<["type" := VString appName]>
      (<["@timestamp" := VString (time.Format_RFC3339 (logrus.Time e))]>
        (<["@level" := VString (logrus.Level_String (logrus.Level_ e))]>
          (<["@message" := VString (logrus.Message e)]> (logrus.Data e))))).

Section WithExternals.
Context {ext : Externals}.

(** Modelled from the spec: [defaultFormatter(appName, version)], the
    formatter of §4.5 and §6: one JSON object per event, followed by a
    newline; a serialization failure is the formatter's error. *)
Definition defaultFormatter (appName version : string) : logrus.Formatter :=
  fun e =>
    match json_Marshal (logstash_fields appName version e) with
    | (serialized, None) => (serialized +:+ newline, None)
    | (_, Some err) => (EmptyString, Some err)
    end.

(** [New] yields [inl hook] where the Go function returns [(hook, nil)],
    and [inr err] where it returns [(nil, err)]. *)
Definition New (opts : Options) : Hook + error :=
  match validOptions opts with
  | Some err => inr err
  | None =>
      let conn := Conn opts in
      let ctx := Fields opts in
      let frmtr := Formatter opts in
      let appName := AppName opts in
      let dialled :=
        if is_nil (Conn opts)
        then match net_Dial (Protocol opts) (Address opts) with
             | inl c => inl (Some c)
             | inr err => inr err
             end
        else inl conn in
      match dialled with
      | inr err => inr err
      | inl conn =>
          let frmtr :=
            if negb (String.eqb appName EmptyString)
            then Some (defaultFormatter appName "1")
            else frmtr in
          let ctx :=
            match ctx with
            | None => ∅
            | Some fields => fields
            end in
          inl (mkHook conn ctx frmtr)
      end
  end.

End WithExternals.

Definition Fire (h : Hook) (entry : logrus.Entry) : Fired :=
  (* add missing context into entry's data *)
  let entry :=
    logrus.with_Data entry
      (merge_missing (map_to_list (ctx h)) (logrus.Data entry)) in
  match formatter h with
  | None => mkFired entry [] Panicked
  | Some f =>
      match f entry with
      | (_, Some err) => mkFired entry [Formatted] (Returned (Some err))
      | (dataBytes, None) =>
          match conn h with
          | None => mkFired entry [Formatted] Panicked
          | Some w =>
              match Write w dataBytes with
              | (_, Some err) =>
                  mkFired entry [Formatted; Wrote dataBytes] (Returned (Some err))
              | (_, None) =>
                  mkFired entry [Formatted; Wrote dataBytes] (Returned None)
              end
          end
      end
  end.

Definition Levels (h : Hook) : list logrus.Level :=
  [ logrus.PanicLevel;
    logrus.FatalLevel;
    logrus.ErrorLevel;
    logrus.WarnLevel;
    logrus.InfoLevel;
    logrus.DebugLevel ].

(** ** legacy.go *)

Module Legacy.

Record LegacyHook : Type := mkLegacyHook {
  conn : option net_Conn;
  appName : string;
  alwaysSentFields : logrus.Fields;
  hookOnlyPrefix : string
}.

Definition NewHookWithFieldsAndConnAndPrefix (conn : option net_Conn)
    (appName : string) (alwaysSentFields : logrus.Fields) (prefix : string)
  : LegacyHook + error :=
  inl (mkLegacyHook conn appName alwaysSentFields prefix).



Section WithExternals.
Context {ext : Externals}.

Definition NewHookWithFieldsAndPrefix (protocol address appName : string)
    (alwaysSentFields : logrus.Fields) (prefix : string)
  : LegacyHook + error :=
  match net_Dial protocol address with
  | inr err => inr err
  | inl conn =>
      NewHookWithFieldsAndConnAndPrefix (Some conn) appName
        alwaysSentFields prefix
  end.

Definition NewHookWithFields (protocol address appName : string)
    (alwaysSentFields : logrus.Fields) : LegacyHook + error :=
  NewHookWithFieldsAndPrefix protocol address appName alwaysSentFields
    EmptyString.

Definition NewHook (protocol address appName : string)
  : LegacyHook + error :=
  NewHookWithFields protocol address appName ∅.

End WithExternals.

Definition NewFilterHookWithPrefix (prefix : string) : LegacyHook :=
  mkLegacyHook None EmptyString ∅ prefix.

Definition NewFilterHook : LegacyHook :=
  NewFilterHookWithPrefix EmptyString.

Definition filterHookOnly (h : LegacyHook) (entry : logrus.Entry)
  : logrus.Entry :=
  if negb (String.eqb (hookOnlyPrefix h) EmptyString)
  then
    logrus.with_Data entry
      (delete_prefixed (hookOnlyPrefix h)
         (map_to_list (logrus.Data entry)).*1 (logrus.Data entry))
  else entry.

Definition WithPrefix (h : LegacyHook) (prefix : string) : LegacyHook :=
  mkLegacyHook (conn h) (appName h) (alwaysSentFields h) prefix.

Definition WithField (h : LegacyHook) (key : string) (value : Value)
  : LegacyHook :=
  mkLegacyHook (conn h) (appName h) (<[key := value]> (alwaysSentFields h))
    (hookOnlyPrefix h).


(** [defer cleanup(entry)]: the cleanup runs on the entry as the body
    leaves it, whichever way the body is left. *)
Definition defer (cleanup : logrus.Entry -> logrus.Entry) (body : Fired)
  : Fired :=
  mkFired (cleanup (entry_after body)) (effects body) (outcome body).

Section WithExternals.
Context {ext : Externals}.

(** The statements of [Fire] after its [defer]. *)
Definition Fire_body (h : LegacyHook) (entry : logrus.Entry) : Fired :=
  let entry :=
    logrus.with_Data entry
      (merge_missing (map_to_list (alwaysSentFields h)) (logrus.Data entry)) in
  match conn h with
  | None => mkFired entry [] (Returned None)
  | Some c =>
      let formatter := mkLogstashFormatter (appName h) in
      match FormatWithPrefix formatter entry (hookOnlyPrefix h) with
      | (_, Some err) => mkFired entry [Formatted] (Returned (Some err))
      | (dataBytes, None) =>
          match Write c dataBytes with
          | (_, Some err) =>
              mkFired entry [Formatted; Wrote dataBytes] (Returned (Some err))
          | (_, None) =>
              mkFired entry [Formatted; Wrote dataBytes] (Returned None)
          end
      end
  end.

Definition Fire (h : LegacyHook) (entry : logrus.Entry) : Fired :=
  defer (filterHookOnly h) (Fire_body h entry).

End WithExternals.

Definition Levels (h : LegacyHook) : list logrus.Level :=
  [ logrus.PanicLevel;
    logrus.FatalLevel;
    logrus.ErrorLevel;
    logrus.WarnLevel;
    logrus.InfoLevel;
    logrus.DebugLevel ].

End Legacy.

(** ** The validator's error conditions *)

Definition ErrMissingConnection : error :=
  errors_New "Missing connection details".
Definition ErrAmbiguousConnection : error :=
  errors_New "Specify Conn or Address and Protocol".
Definition ErrAmbiguousFormatter : error :=
  errors_New "Specify AppName or Formatter".

(** No connection source: no pre-built writer, and no complete
    protocol/address pair. *)
Definition no_connection_source (opts : Options) : Prop :=
  Conn opts = None ∧ (Address opts = EmptyString ∨ Protocol opts = EmptyString).

(** Both connection sources: a pre-built writer, and a protocol or an
    address. *)
Definition both_connection_sources (opts : Options) : Prop :=
  Conn opts ≠ None ∧ (Address opts ≠ EmptyString ∨ Protocol opts ≠ EmptyString).

(** Both formatter sources: an application name and a custom formatter. *)
Definition both_formatter_sources (opts : Options) : Prop :=
  AppName opts ≠ EmptyString ∧ Formatter opts ≠ None.

(** A valid connection source: exactly one of the two is given. *)
Definition valid_connection_source (opts : Options) : Prop :=
  ¬ no_connection_source opts ∧ ¬ both_connection_sources opts.

(** ** Collaborators of the package's tests *)

(** A [bytes.Buffer] as a writer: every write succeeds. *)
Definition buffer : io_Writer :=
  mkWriter (fun p => (Z.of_nat (String.length p), None)).

(** The [failer] of the tests, as a formatter and as a writer. *)
Definition failer_Format (ffunc : option error) : logrus.Formatter :=
  fun _ => (EmptyString, ffunc).

Definition failer_Write (wfunc : option error) : io_Writer :=
  mkWriter (fun _ => (0%Z, wfunc)).

(** Collaborators that always succeed: dialling yields a buffer, and
    serialization an empty object. *)
Definition loopback : Externals := {|
  net_Dial := fun _ _ => inl buffer;
  json_Marshal := fun _ => ("{}", None);
  FormatWithPrefix := fun _ _ _ => ("{}", None)
|}.

(** Collaborators whose legacy formatter fails. *)
Definition unformattable : Externals := {|
  net_Dial := fun _ _ => inl buffer;
  json_Marshal := fun _ => (EmptyString, Some (errors_New "format error"));
  FormatWithPrefix := fun _ _ _ => (EmptyString, Some (errors_New "format error"))
|}.

(** ** Vocabulary of the statements *)

(** [after] holds every static field the entry did not have, with the static
    value, and every field the entry had, with the entry's value. *)
Definition merged_without_overwrite (static before after : gmap string Value)
  : Prop :=
  (∀ k v, static !! k = Some v → before !! k = None → after !! k = Some v)
  ∧ (∀ k v, before !! k = Some v → after !! k = Some v).

(** The key is one the legacy hook filters: the hook has a non-empty prefix
    and the key starts with it. *)
Definition hook_only (h : Legacy.LegacyHook) (k : string) : bool :=
  negb (String.eqb (Legacy.hookOnlyPrefix h) EmptyString)
  && strings_HasPrefix k (Legacy.hookOnlyPrefix h).

(** The entry as the merge loop of [Fire] leaves it. *)
Definition merged (static : gmap string Value) (entry : logrus.Entry)
  : logrus.Entry :=
  logrus.with_Data entry (logrus.Data entry ∪ static).

(** No key of [after] starts with [prefix]. *)
Definition prefixed_keys_removed (prefix : string) (after : gmap string Value)
  : Prop :=
  ∀ k, strings_HasPrefix k prefix = true → after !! k = None.

(** ** Vocabulary of the further properties *)

(** A field [filterHookOnly] keeps under [prefix]: its key does not start
    with the prefix. *)
Definition kept (prefix : string) (kv : string * Value) : Prop :=
  strings_HasPrefix kv.1 prefix = false.

#[global] Instance kept_dec (prefix : string) (kv : string * Value) :
  Decision (kept prefix kv).
Proof. unfold kept. apply _. Defined.

(** The options-based hook with the connection, the static fields and the
    formatter of a legacy hook. *)
Definition Legacy_as_Hook `{Externals} (h : Legacy.LegacyHook) : Hook :=
  mkHook (Legacy.conn h) (Legacy.alwaysSentFields h)
    (Some (fun e =>
             FormatWithPrefix (mkLogstashFormatter (Legacy.appName h)) e
               (Legacy.hookOnlyPrefix h))).

(** Collaborators whose [net.Dial] fails, as in [TestNewErrors]. *)
Definition unreachable : Externals := {|
  net_Dial := fun _ _ => inr (errors_New "no route to host");
  json_Marshal := fun _ => ("{}", None);
  FormatWithPrefix := fun _ _ _ => ("{}", None)
|}.

(** * Properties *)

(** ** The two [range] loops *)

Lemma HasPrefix_empty (s : string) : strings_HasPrefix s EmptyString = true.
Proof. unfold strings_HasPrefix. by destruct s. Qed.

(** [strings.HasPrefix] holds exactly of the strings that begin with the
    prefix. *)
Lemma HasPrefix_starts_with (prefix : string) :
  ∀ s, strings_HasPrefix s prefix = true ↔ ∃ rest, s = prefix +:+ rest.
Proof.
  induction prefix as [|a prefix IH]; intros s.
  - rewrite HasPrefix_empty. split; [by exists s | done].
  - destruct s as [|b s].
    + split; [done | by intros [rest ?]].
    + unfold strings_HasPrefix in *. cbn.
      specialize (IH s). rewrite andb_true_iff in IH.
      rewrite !andb_true_iff.
      destruct (Ascii.eqb_spec b a) as [->|Hne]; split.
      * intros [Hlen Heq].
        destruct (proj1 IH (conj Hlen Heq)) as [rest ->]. by exists rest.
      * intros [rest [= ->]]. apply IH. by exists rest.
      * by intros [_ ?].
      * intros [rest [= ? _]]. done.
Qed.

(** The merge loop keeps what the entry has and takes the first binding the
    enumeration offers for every other key. *)
Lemma merge_missing_lookup (kvs : list (string * Value)) :
  ∀ (data : gmap string Value) (k : string),
    merge_missing kvs data !! k =
      match data !! k with
      | Some x => Some x
      | None => (list_to_map kvs : gmap string Value) !! k
      end.
Proof.
  induction kvs as [|[k' v] rest IH]; intros data k; simpl.
  - rewrite lookup_empty. by destruct (data !! k).
  - rewrite IH. destruct (decide (k' = k)) as [->|Hne].
    + rewrite lookup_insert_eq.
      destruct (data !! k) as [x|] eqn:Hk; rewrite ?Hk, ?lookup_insert_eq; done.
    + rewrite (lookup_insert_ne (list_to_map rest)) by done.
      destruct (data !! k') as [x|] eqn:Hk'; [done|].
      by rewrite lookup_insert_ne.
Qed.

(** Whatever the order in which Go enumerates the static fields, the merge
    loop computes the union that prefers the entry's own fields. *)
Lemma merge_missing_union (src data : gmap string Value)
    (kvs : list (string * Value)) :
  kvs ≡ₚ map_to_list src →
  merge_missing kvs data = data ∪ src.
Proof.
  intros Hperm. apply map_eq; intros k.
  rewrite merge_missing_lookup, lookup_union.
  assert ((list_to_map kvs : gmap string Value) = src) as ->.
  { rewrite <- (list_to_map_to_list src).
    apply list_to_map_proper; [|done].
    rewrite Hperm. apply NoDup_fst_map_to_list. }
  destruct (data !! k), (src !! k); done.
Qed.

Lemma merge_missing_range (src data : gmap string Value) :
  merge_missing (map_to_list src) data = data ∪ src.
Proof. by apply merge_missing_union. Qed.

(** The deleting loop removes exactly the visited keys that carry the
    prefix. *)
Lemma delete_prefixed_lookup (prefix : string) (keys : list string) :
  ∀ (data : gmap string Value) (k : string),
    delete_prefixed prefix keys data !! k =
      if strings_HasPrefix k prefix && bool_decide (k ∈ keys)
      then None
      else data !! k.
Proof.
  induction keys as [|key rest IH]; intros data k; cbn [delete_prefixed].
  - rewrite bool_decide_eq_false_2 by apply not_elem_of_nil.
    by rewrite andb_false_r.
  - rewrite IH. destruct (decide (k = key)) as [->|Hne].
    + rewrite (bool_decide_eq_true_2 (key ∈ key :: rest)) by left.
      destruct (strings_HasPrefix key prefix); simpl; [|done].
      rewrite lookup_delete_eq. by destruct (bool_decide (key ∈ rest)).
    + assert (bool_decide (k ∈ key :: rest) = bool_decide (k ∈ rest)) as ->.
      { apply bool_decide_ext. rewrite elem_of_cons. tauto. }
      destruct (strings_HasPrefix k prefix && bool_decide (k ∈ rest)); [done|].
      destruct (strings_HasPrefix key prefix); [|done].
      by rewrite lookup_delete_ne.
Qed.

(** Ranging over the map itself, in any order, the loop leaves the fields
    whose key does not carry the prefix. *)
Lemma delete_prefixed_range (prefix : string) (data : gmap string Value)
    (keys : list string) (k : string) :
  keys ≡ₚ (map_to_list data).*1 →
  delete_prefixed prefix keys data !! k =
    if strings_HasPrefix k prefix then None else data !! k.
Proof.
  intros Hperm. rewrite delete_prefixed_lookup.
  destruct (strings_HasPrefix k prefix); simpl; [|done].
  case_bool_decide as Hin; [done|].
  destruct (data !! k) as [x|] eqn:Hk; [|done].
  exfalso. apply Hin. rewrite Hperm.
  apply list_elem_of_fmap. exists (k, x). split; [done|].
  by apply elem_of_map_to_list.
Qed.

Lemma filterHookOnly_lookup (h : Legacy.LegacyHook) (entry : logrus.Entry)
    (k : string) :
  logrus.Data (Legacy.filterHookOnly h entry) !! k =
    if negb (String.eqb (Legacy.hookOnlyPrefix h) EmptyString)
       && strings_HasPrefix k (Legacy.hookOnlyPrefix h)
    then None
    else logrus.Data entry !! k.
Proof.
  unfold Legacy.filterHookOnly.
  destruct (negb (String.eqb (Legacy.hookOnlyPrefix h) EmptyString)); simpl; [|done].
  by apply delete_prefixed_range.
Qed.

(** ** The options validator *)

Lemma is_nil_true {A : Type} (x : option A) : is_nil x = true ↔ x = None.
Proof. by destruct x. Qed.

Lemma is_nil_false {A : Type} (x : option A) : is_nil x = false ↔ x ≠ None.
Proof. destruct x; simpl; split; congruence. Qed.

Lemma eqb_empty_true (s : string) :
  String.eqb s EmptyString = true ↔ s = EmptyString.
Proof. apply String.eqb_eq. Qed.

Lemma eqb_empty_false (s : string) :
  String.eqb s EmptyString = false ↔ s ≠ EmptyString.
Proof. apply String.eqb_neq. Qed.

(** Turn the validator's tests into facts about the options. *)
Ltac options_cases opts :=
  unfold validOptions;
  destruct (is_nil (Conn opts)) eqn:HConn;
  destruct (String.eqb (Address opts) EmptyString) eqn:HAddress;
  destruct (String.eqb (Protocol opts) EmptyString) eqn:HProtocol;
  destruct (String.eqb (AppName opts) EmptyString) eqn:HAppName;
  destruct (is_nil (Formatter opts)) eqn:HFormatter;
  first [apply is_nil_true in HConn | apply is_nil_false in HConn];
  first [apply is_nil_true in HFormatter | apply is_nil_false in HFormatter];
  first [apply eqb_empty_true in HAddress | apply eqb_empty_false in HAddress];
  first [apply eqb_empty_true in HProtocol | apply eqb_empty_false in HProtocol];
  first [apply eqb_empty_true in HAppName | apply eqb_empty_false in HAppName];
  simpl.

Lemma validOptions_missing (opts : Options) :
  no_connection_source opts ↔ validOptions opts = Some ErrMissingConnection.
Proof.
  unfold no_connection_source. options_cases opts;
    split; try done; try tauto; intros; split; auto.
Qed.

Lemma validOptions_ambiguous_connection (opts : Options) :
  both_connection_sources opts ↔
  validOptions opts = Some ErrAmbiguousConnection.
Proof.
  unfold both_connection_sources. options_cases opts;
    split; try done; try tauto; intros; split; auto.
Qed.

Lemma validOptions_ambiguous_formatter (opts : Options) :
  ¬ no_connection_source opts ∧ ¬ both_connection_sources opts
    ∧ both_formatter_sources opts ↔
  validOptions opts = Some ErrAmbiguousFormatter.
Proof.
  unfold no_connection_source, both_connection_sources, both_formatter_sources.
  options_cases opts; split; try done; try tauto; intros; repeat split; tauto.
Qed.

Lemma validOptions_success (opts : Options) :
  ¬ no_connection_source opts ∧ ¬ both_connection_sources opts
    ∧ ¬ both_formatter_sources opts ↔
  validOptions opts = None.
Proof.
  unfold no_connection_source, both_connection_sources, both_formatter_sources.
  options_cases opts; split; try done; try tauto; intros; repeat split; tauto.
Qed.

Lemma New_invalid `{Externals} (opts : Options) (err : error) :
  validOptions opts = Some err → New opts = inr err.
Proof. intros Hv. unfold New. by rewrite Hv. Qed.

Lemma validOptions_errors (opts : Options) (err : error) :
  validOptions opts = Some err →
  err = ErrMissingConnection ∨ err = ErrAmbiguousConnection
  ∨ err = ErrAmbiguousFormatter.
Proof.
  unfold validOptions.
  repeat match goal with
         | |- context [if ?b then _ else _] => destruct b
         end; intros [= <-]; auto.
Qed.

(** C2. The options validator returns success or exactly one of three
    errors, checked in a fixed order: no connection source gives
    "Missing connection details"; otherwise a pre-built writer together with a
    protocol or an address gives "Specify Conn or Address and Protocol";
    otherwise an application name together with a custom formatter gives
    "Specify AppName or Formatter"; otherwise validation succeeds.  The three
    errors are distinct, no other error is returned, and [New] hands the
    validator's error back unchanged. *)
Theorem validOptions_ordered_checks `{Externals} (opts : Options) :
  (no_connection_source opts →
     validOptions opts = Some ErrMissingConnection)
  ∧ (¬ no_connection_source opts → both_connection_sources opts →
     validOptions opts = Some ErrAmbiguousConnection)
  ∧ (¬ no_connection_source opts → ¬ both_connection_sources opts →
     both_formatter_sources opts →
     validOptions opts = Some ErrAmbiguousFormatter)
  ∧ (¬ no_connection_source opts → ¬ both_connection_sources opts →
     ¬ both_formatter_sources opts →
     validOptions opts = None)
  ∧ (∀ err, validOptions opts = Some err →
       (err = ErrMissingConnection ∨ err = ErrAmbiguousConnection
        ∨ err = ErrAmbiguousFormatter)
       ∧ New opts = inr err)
  ∧ ErrMissingConnection ≠ ErrAmbiguousConnection
  ∧ ErrMissingConnection ≠ ErrAmbiguousFormatter
  ∧ ErrAmbiguousConnection ≠ ErrAmbiguousFormatter.
Proof.
  split; [apply validOptions_missing|].
  split; [intros _; apply validOptions_ambiguous_connection|].
  split; [intros; by apply validOptions_ambiguous_formatter|].
  split; [intros; by apply validOptions_success|].
  split; [|done].
  intros err Herr. split; [by eapply validOptions_errors | by apply New_invalid].
Qed.

Lemma validOptions_ordered_checks_witness :
  validOptions (mkOptions None EmptyString EmptyString "bla" None
                  (Some (failer_Format None)))
    = Some ErrMissingConnection
  ∧ validOptions (mkOptions (Some buffer) "tcp" "localhost" "bla" None
                    (Some (failer_Format None)))
    = Some ErrAmbiguousConnection
  ∧ validOptions (mkOptions (Some buffer) EmptyString EmptyString "bla" None
                    (Some (failer_Format None)))
    = Some ErrAmbiguousFormatter
  ∧ validOptions (mkOptions None "udp" "localhost:8989" "bla" None None)
    = None.
Proof.
  split; [|split; [|split]].
  - apply (@validOptions_ordered_checks loopback).
    split; [reflexivity | left; reflexivity].
  - apply (@validOptions_ordered_checks loopback).
    + intros [Hc _]; discriminate Hc.
    + split; [discriminate | left; discriminate].
  - apply (@validOptions_ordered_checks loopback).
    + intros [Hc _]; discriminate Hc.
    + intros [_ [Ha | Hp]]; [apply Ha | apply Hp]; reflexivity.
    + split; discriminate.
  - apply (@validOptions_ordered_checks loopback).
    + intros [_ [Ha | Hp]]; discriminate.
    + intros [Hc _]; apply Hc; reflexivity.
    + intros [_ Hf]; apply Hf; reflexivity.
Defined.

(** C9. An incomplete protocol/address pair is classified asymmetrically:
    without a pre-built writer, only an address or only a protocol fails with
    the missing-connection error; with a pre-built writer, even one of
    protocol and address fails with the ambiguous-connection error. *)
Theorem validOptions_incomplete_pair (opts : Options) :
  (Conn opts = None →
   (Address opts ≠ EmptyString ∧ Protocol opts = EmptyString)
   ∨ (Address opts = EmptyString ∧ Protocol opts ≠ EmptyString) →
   validOptions opts = Some ErrMissingConnection)
  ∧ (Conn opts ≠ None →
     Address opts ≠ EmptyString ∨ Protocol opts ≠ EmptyString →
     validOptions opts = Some ErrAmbiguousConnection).
Proof.
  split.
  - intros Hc Hpair. apply validOptions_missing. split; [done | tauto].
  - intros Hc Hpair. by apply validOptions_ambiguous_connection.
Qed.

Lemma validOptions_incomplete_pair_witness :
  validOptions (mkOptions None EmptyString "localhost:8989" EmptyString None None)
    = Some ErrMissingConnection
  ∧ validOptions (mkOptions None "tcp" EmptyString EmptyString None None)
    = Some ErrMissingConnection
  ∧ validOptions (mkOptions (Some buffer) "tcp" EmptyString EmptyString None None)
    = Some ErrAmbiguousConnection
  ∧ validOptions (mkOptions (Some buffer) EmptyString "localhost" EmptyString
                    None None)
    = Some ErrAmbiguousConnection.
Proof.
  split; [|split; [|split]].
  - apply validOptions_incomplete_pair; [reflexivity|].
    left. split; [discriminate | reflexivity].
  - apply validOptions_incomplete_pair; [reflexivity|].
    right. split; [reflexivity | discriminate].
  - apply validOptions_incomplete_pair; [discriminate|].
    right. discriminate.
  - apply validOptions_incomplete_pair; [discriminate|].
    left. discriminate.
Defined.

Lemma New_valid `{Externals} (opts : Options) :
  validOptions opts = None →
  New opts =
    match (if is_nil (Conn opts)
           then match net_Dial (Protocol opts) (Address opts) with
                | inl c => inl (Some c)
                | inr err => inr err
                end
           else inl (Conn opts)) with
    | inr err => inr err
    | inl c =>
        inl (mkHook c (default ∅ (Fields opts))
               (if negb (String.eqb (AppName opts) EmptyString)
                then Some (defaultFormatter (AppName opts) "1")
                else Formatter opts))
    end.
Proof.
  intros Hv. unfold New. rewrite Hv.
  destruct (is_nil (Conn opts)); [destruct (net_Dial _ _)|]; by destruct (Fields opts).
Qed.

Lemma Fire_nil_formatter (h : Hook) (entry : logrus.Entry) :
  formatter h = None →
  Fire h entry = mkFired (merged (ctx h) entry) [] Panicked.
Proof.
  intros Hf. unfold Fire, merged. by rewrite Hf, merge_missing_range.
Qed.

(** C10. Validation does not require a formatter source: with a valid
    connection source and neither an application name nor a custom formatter,
    [validOptions] succeeds; [New] returns a hook as soon as a connection is at
    hand (the supplied writer, or the one [net.Dial] yields), and fails only
    with the dial error; every hook it returns has a nil formatter, and [Fire]
    on such a hook panics on the nil formatter before anything is formatted or
    written. *)
Theorem New_without_formatter_source `{Externals} (opts : Options) :
  valid_connection_source opts →
  AppName opts = EmptyString →
  Formatter opts = None →
  validOptions opts = None
  ∧ (∀ w, Conn opts = Some w →
       New opts = inl (mkHook (Some w) (default ∅ (Fields opts)) None))
  ∧ (∀ c, Conn opts = None →
       net_Dial (Protocol opts) (Address opts) = inl c →
       New opts = inl (mkHook (Some c) (default ∅ (Fields opts)) None))
  ∧ (∀ err, Conn opts = None →
       net_Dial (Protocol opts) (Address opts) = inr err →
       New opts = inr err)
  ∧ (∀ h, New opts = inl h →
       formatter h = None
       ∧ ∀ entry, outcome (Fire h entry) = Panicked
                  ∧ effects (Fire h entry) = []).
Proof.
  intros [Hno Hboth] Happ Hfmt.
  assert (validOptions opts = None) as Hv.
  { apply validOptions_success. repeat split; try done.
    intros [_ Hf]. by apply Hf. }
  pose proof (New_valid opts Hv) as HNew.
  rewrite Happ, Hfmt in HNew. simpl in HNew.
  assert (∀ h, New opts = inl h → formatter h = None) as Hnil.
  { intros h Hh. rewrite HNew in Hh.
    destruct (is_nil (Conn opts)); [destruct (net_Dial _ _)|]; by simplify_eq. }
  split; [done|].
  split; [intros w Hw; by rewrite HNew, Hw|].
  split; [intros c Hc Hdial; by rewrite HNew, Hc, Hdial|].
  split; [intros err Hc Hdial; by rewrite HNew, Hc, Hdial|].
  intros h Hh. split; [by apply Hnil|].
  intros entry. by rewrite Fire_nil_formatter by by apply Hnil.
Qed.

Lemma New_without_formatter_source_witness :
  validOptions (mkOptions (Some buffer) EmptyString EmptyString EmptyString
                  None None) = None
  ∧ @New loopback
      (mkOptions (Some buffer) EmptyString EmptyString EmptyString None None)
    = inl (mkHook (Some buffer) ∅ None)
  ∧ outcome (Fire (mkHook (Some buffer) ∅ None)
               (logrus.mkEntry ∅ time.zero logrus.InfoLevel "hello"))
    = Panicked.
Proof.
  assert (valid_connection_source
            (mkOptions (Some buffer) EmptyString EmptyString EmptyString
               None None)) as Hvalid.
  { split.
    - intros [Hc _]; discriminate Hc.
    - intros [_ [Ha | Hp]]; [apply Ha | apply Hp]; reflexivity. }
  pose proof (@New_without_formatter_source loopback _ Hvalid eq_refl eq_refl)
    as (Hv & Hconn & _ & _ & Hfire).
  split; [exact Hv|]. split; [exact (Hconn buffer eq_refl)|].
  exact (proj1 (proj2 (Hfire _ (Hconn buffer eq_refl)) _)).
Defined.

(** ** What [Fire] does to the entry *)

Lemma merged_lookup (static : gmap string Value) (entry : logrus.Entry)
    (k : string) :
  logrus.Data (merged static entry) !! k =
    match logrus.Data entry !! k with
    | Some x => Some x
    | None => static !! k
    end.
Proof.
  unfold merged. simpl. rewrite lookup_union.
  by destruct (logrus.Data entry !! k), (static !! k).
Qed.

Lemma merged_without_overwrite_merged (static : gmap string Value)
    (entry : logrus.Entry) :
  merged_without_overwrite static (logrus.Data entry)
    (logrus.Data (merged static entry)).
Proof.
  split; intros k v.
  - intros Hs He. by rewrite merged_lookup, He.
  - intros He. by rewrite merged_lookup, He.
Qed.

(** On every path through [Fire] the entry is left as the merge loop made
    it. *)
Lemma Fire_entry_after (h : Hook) (entry : logrus.Entry) :
  entry_after (Fire h entry) = merged (ctx h) entry.
Proof.
  unfold Fire. rewrite merge_missing_range. fold (merged (ctx h) entry).
  destruct (formatter h) as [f|]; [|done].
  destruct (f (merged (ctx h) entry)) as [dataBytes [err|]]; [done|].
  destruct (conn h) as [w|]; [|done].
  by destruct (Write w dataBytes) as [n [err|]].
Qed.

Section LegacyFire.
Context {ext : Externals}.

Lemma Legacy_Fire_body_entry_after (h : Legacy.LegacyHook)
    (entry : logrus.Entry) :
  entry_after (Legacy.Fire_body h entry)
  = merged (Legacy.alwaysSentFields h) entry.
Proof.
  unfold Legacy.Fire_body. rewrite merge_missing_range.
  fold (merged (Legacy.alwaysSentFields h) entry).
  destruct (Legacy.conn h) as [c|]; [|done]. simpl.
  destruct (FormatWithPrefix _ _ _) as [dataBytes [err|]]; [done|].
  by destruct (Write c dataBytes) as [n [err|]].
Qed.

Lemma Legacy_Fire_entry_after (h : Legacy.LegacyHook)
    (entry : logrus.Entry) :
  entry_after (Legacy.Fire h entry)
  = Legacy.filterHookOnly h (merged (Legacy.alwaysSentFields h) entry).
Proof.
  unfold Legacy.Fire, Legacy.defer. simpl.
  by rewrite Legacy_Fire_body_entry_after.
Qed.

(** The field mapping the legacy [Fire] leaves: hook-only keys are gone,
    every other key reads as after the merge. *)
Lemma Legacy_Fire_lookup (h : Legacy.LegacyHook) (entry : logrus.Entry)
    (k : string) :
  logrus.Data (entry_after (Legacy.Fire h entry)) !! k =
    if hook_only h k
    then None
    else logrus.Data (merged (Legacy.alwaysSentFields h) entry) !! k.
Proof. by rewrite Legacy_Fire_entry_after, filterHookOnly_lookup. Qed.

End LegacyFire.

(** ** Static fields *)

(** C1, as stated, fails on the legacy hook: with prefix [_] and the static
    field [_hostname], the static field is absent from the entry once [Fire]
    has returned. *)
Lemma static_fields_merge_counterexample :
  ¬ merged_without_overwrite
      {["_hostname" := VString "h1"]}
      {["status" := VString "up"]}
      (logrus.Data (entry_after
         (@Legacy.Fire loopback
            (Legacy.WithField (Legacy.NewFilterHookWithPrefix "_")
               "_hostname" (VString "h1"))
            (logrus.mkEntry {["status" := VString "up"]} time.zero
               logrus.InfoLevel "hello")))).
Proof.
  intros [Hstatic _].
  specialize (Hstatic "_hostname" (VString "h1")).
  rewrite Legacy_Fire_lookup in Hstatic.
  assert (None = Some (VString "h1")) as Habsurd; [|discriminate Habsurd].
  apply Hstatic.
  - apply lookup_singleton_eq.
  - by apply lookup_singleton_ne.
Qed.

(** C1, amended.  After [Fire] on the options-based hook, every static field
    the entry did not have is present with the static value and every field
    the entry had keeps its value.  After [Fire] on the legacy hook the same
    holds for every key that is not hook-only (the prefix is empty, or the key
    does not start with it); hook-only keys are absent. *)
Theorem static_fields_never_overwrite `{Externals} :
  (∀ (h : Hook) (entry : logrus.Entry),
     merged_without_overwrite (ctx h) (logrus.Data entry)
       (logrus.Data (entry_after (Fire h entry))))
  ∧ (∀ (h : Legacy.LegacyHook) (entry : logrus.Entry),
       let after := logrus.Data (entry_after (Legacy.Fire h entry)) in
       (∀ k v, hook_only h k = false →
          Legacy.alwaysSentFields h !! k = Some v →
          logrus.Data entry !! k = None →
          after !! k = Some v)
       ∧ (∀ k v, hook_only h k = false →
            logrus.Data entry !! k = Some v →
            after !! k = Some v)
       ∧ (∀ k, hook_only h k = true → after !! k = None)).
Proof.
  split.
  - intros h entry. rewrite Fire_entry_after.
    apply merged_without_overwrite_merged.
  - intros h entry after. subst after.
    destruct (merged_without_overwrite_merged (Legacy.alwaysSentFields h) entry)
      as [Hstatic Hentry].
    repeat split.
    + intros k v Hk Hs He. rewrite Legacy_Fire_lookup, Hk. by apply Hstatic.
    + intros k v Hk He. rewrite Legacy_Fire_lookup, Hk. by apply Hentry.
    + intros k Hk. by rewrite Legacy_Fire_lookup, Hk.
Qed.

Lemma static_fields_never_overwrite_witness :
  logrus.Data (entry_after
     (@Legacy.Fire loopback
        (Legacy.mkLegacyHook None EmptyString {["f1" := VInt 1]} "_")
        (logrus.mkEntry {["id" := VString "a1"]} time.zero
           logrus.PanicLevel "hello world"))) !! "f1" = Some (VInt 1)
  ∧ logrus.Data (entry_after
     (@Legacy.Fire loopback
        (Legacy.mkLegacyHook None EmptyString {["f1" := VInt 1]} "_")
        (logrus.mkEntry {["f1" := VString "a2"]} time.zero
           logrus.InfoLevel "world"))) !! "f1" = Some (VString "a2")
  ∧ logrus.Data (entry_after
     (@Legacy.Fire loopback
        (Legacy.mkLegacyHook None EmptyString {["_f1" := VInt 1]} "_")
        (logrus.mkEntry {["id" := VString "a1"]} time.zero
           logrus.PanicLevel "hello world"))) !! "_f1" = None
  ∧ logrus.Data (entry_after
     (Fire (mkHook (Some buffer) {["f1" := VInt 1]} None)
        (logrus.mkEntry {["f1" := VString "a2"]} time.zero
           logrus.InfoLevel "world"))) !! "f1" = Some (VString "a2").
Proof.
  split; [|split; [|split]]; cycle 3.
  - refine (proj2 (proj1 (@static_fields_never_overwrite loopback) _ _)
              "f1" (VString "a2") _); reflexivity.
  - refine (proj1 (proj2 (@static_fields_never_overwrite loopback) _ _)
              "f1" (VInt 1) _ _ _); reflexivity.
  - refine (proj1 (proj2 (proj2 (@static_fields_never_overwrite loopback) _ _))
              "f1" (VString "a2") _ _); reflexivity.
  - refine (proj2 (proj2 (proj2 (@static_fields_never_overwrite loopback) _ _))
              "_f1" _); reflexivity.
Defined.

(** ** The prefix filter *)

(** C3, as stated, fails for the empty prefix: every key starts with it, and
    [Fire] removes none. *)
Lemma prefix_cleanup_counterexample :
  ¬ prefixed_keys_removed (Legacy.hookOnlyPrefix Legacy.NewFilterHook)
      (logrus.Data (entry_after
         (@Legacy.Fire loopback Legacy.NewFilterHook
            (logrus.mkEntry {["status" := VString "up"]} time.zero
               logrus.InfoLevel "hello")))).
Proof.
  intros Hremoved. specialize (Hremoved "status" eq_refl).
  rewrite Legacy_Fire_lookup, merged_lookup in Hremoved.
  cbn [logrus.Data] in Hremoved.
  by rewrite lookup_singleton_eq in Hremoved.
Qed.

(** C3, amended.  For every legacy hook with a non-empty prefix, whatever its
    connection, formatter and writer do, and so however [Fire] is left
    (success, format error, write error, or no connection at all), no key of
    the entry's field mapping starts with the prefix once [Fire] is left; the
    deferred cleanup changes neither the result nor the calls made. *)
Theorem prefix_cleanup_on_every_exit `{Externals} (h : Legacy.LegacyHook)
    (entry : logrus.Entry) :
  Legacy.hookOnlyPrefix h ≠ EmptyString →
  prefixed_keys_removed (Legacy.hookOnlyPrefix h)
    (logrus.Data (entry_after (Legacy.Fire h entry)))
  ∧ entry_after (Legacy.Fire h entry)
    = Legacy.filterHookOnly h (entry_after (Legacy.Fire_body h entry))
  ∧ outcome (Legacy.Fire h entry) = outcome (Legacy.Fire_body h entry)
  ∧ effects (Legacy.Fire h entry) = effects (Legacy.Fire_body h entry).
Proof.
  intros Hprefix. split; [|done].
  intros k Hk. rewrite Legacy_Fire_lookup. unfold hook_only.
  apply eqb_empty_false in Hprefix. by rewrite Hprefix, Hk.
Qed.

Lemma prefix_cleanup_on_every_exit_witness :
  logrus.Data (entry_after
     (@Legacy.Fire unformattable
        (Legacy.mkLegacyHook (Some buffer) "app" ∅ "_")
        (logrus.mkEntry {["_hostname" := VString "h1"]} time.zero
           logrus.InfoLevel "hello"))) !! "_hostname" = None
  ∧ outcome
      (@Legacy.Fire unformattable
         (Legacy.mkLegacyHook (Some buffer) "app" ∅ "_")
         (logrus.mkEntry {["_hostname" := VString "h1"]} time.zero
            logrus.InfoLevel "hello"))
    = Returned (Some (errors_New "format error")).
Proof.
  pose proof (@prefix_cleanup_on_every_exit unformattable
                (Legacy.mkLegacyHook (Some buffer) "app" ∅ "_")
                (logrus.mkEntry {["_hostname" := VString "h1"]} time.zero
                   logrus.InfoLevel "hello")) as Hexit.
  split; [|reflexivity].
  apply (proj1 (Hexit ltac:(discriminate))). reflexivity.
Defined.

(** C8. With the empty prefix the cleanup removes nothing: [filterHookOnly]
    leaves the entry as it is, [Fire] keeps every field of the entry, and a
    hook built by [NewFilterHook] has the empty prefix and leaves the whole
    entry unchanged. *)
Theorem empty_prefix_removes_nothing `{Externals} :
  (∀ (h : Legacy.LegacyHook) (entry : logrus.Entry),
     Legacy.hookOnlyPrefix h = EmptyString →
     Legacy.filterHookOnly h entry = entry
     ∧ ∀ k v, logrus.Data entry !! k = Some v →
              logrus.Data (entry_after (Legacy.Fire h entry)) !! k = Some v)
  ∧ Legacy.hookOnlyPrefix Legacy.NewFilterHook = EmptyString
  ∧ (∀ entry : logrus.Entry,
       entry_after (Legacy.Fire Legacy.NewFilterHook entry) = entry).
Proof.
  assert (∀ (h : Legacy.LegacyHook) (entry : logrus.Entry),
            Legacy.hookOnlyPrefix h = EmptyString →
            Legacy.filterHookOnly h entry = entry) as Hfilter.
  { intros h entry Hprefix. unfold Legacy.filterHookOnly. by rewrite Hprefix. }
  split; [|split; [done|]].
  - intros h entry Hprefix. split; [by apply Hfilter|].
    intros k v Hk. rewrite Legacy_Fire_lookup, merged_lookup, Hk.
    unfold hook_only. by rewrite Hprefix.
  - intros entry. rewrite Legacy_Fire_entry_after, Hfilter by done.
    unfold merged. simpl. rewrite (right_id_L ∅ (∪)). by destruct entry.
Qed.

Lemma empty_prefix_removes_nothing_witness :
  Legacy.filterHookOnly
    (Legacy.mkLegacyHook (Some buffer) "app" {["f1" := VInt 1]} EmptyString)
    (logrus.mkEntry {["_hostname" := VString "h1"]} time.zero
       logrus.InfoLevel "hello")
  = logrus.mkEntry {["_hostname" := VString "h1"]} time.zero
      logrus.InfoLevel "hello".
Proof.
  apply (proj1 (@empty_prefix_removes_nothing loopback)). reflexivity.
Defined.

(** ** Results of [Fire] *)

Lemma Fire_unfold (h : Hook) (entry : logrus.Entry) :
  Fire h entry =
    let entry' := merged (ctx h) entry in
    match formatter h with
    | None => mkFired entry' [] Panicked
    | Some f =>
        match f entry' with
        | (_, Some err) => mkFired entry' [Formatted] (Returned (Some err))
        | (dataBytes, None) =>
            match conn h with
            | None => mkFired entry' [Formatted] Panicked
            | Some w =>
                mkFired entry' [Formatted; Wrote dataBytes]
                  (Returned (Write w dataBytes).2)
            end
        end
    end.
Proof.
  unfold Fire. rewrite merge_missing_range. fold (merged (ctx h) entry). simpl.
  destruct (formatter h) as [f|]; [|done].
  destruct (f (merged (ctx h) entry)) as [dataBytes [err|]]; [done|].
  destruct (conn h) as [w|]; [|done].
  by destruct (Write w dataBytes) as [n [err|]].
Qed.

Lemma Legacy_Fire_body_unfold `{Externals} (h : Legacy.LegacyHook)
    (entry : logrus.Entry) :
  Legacy.Fire_body h entry =
    let entry' := merged (Legacy.alwaysSentFields h) entry in
    match Legacy.conn h with
    | None => mkFired entry' [] (Returned None)
    | Some c =>
        match FormatWithPrefix (mkLogstashFormatter (Legacy.appName h)) entry'
                (Legacy.hookOnlyPrefix h) with
        | (_, Some err) => mkFired entry' [Formatted] (Returned (Some err))
        | (dataBytes, None) =>
            mkFired entry' [Formatted; Wrote dataBytes]
              (Returned (Write c dataBytes).2)
        end
    end.
Proof.
  unfold Legacy.Fire_body. rewrite merge_missing_range.
  fold (merged (Legacy.alwaysSentFields h) entry). simpl.
  destruct (Legacy.conn h) as [c|]; [|done].
  destruct (FormatWithPrefix _ _ _) as [dataBytes [err|]]; [done|].
  by destruct (Write c dataBytes) as [n [err|]].
Qed.



(** C5. [Fire] returns the first error met, as the very value the failing
    step produced: a format error is returned without any write being
    attempted; when formatting succeeds, the error of the write is returned;
    when both succeed, [Fire] returns success.  This holds for the
    options-based hook (with a formatter and a connection) and for the legacy
    hook with a connection. *)
Theorem Fire_returns_first_error `{Externals} :
  (∀ (h : Hook) (entry : logrus.Entry) f w,
     formatter h = Some f → conn h = Some w →
     let fired := Fire h entry in
     let formatted := f (merged (ctx h) entry) in
     (∀ err, formatted.2 = Some err →
        outcome fired = Returned (Some err) ∧ effects fired = [Formatted])
     ∧ (∀ err, formatted.2 = None →
          (Write w formatted.1).2 = Some err →
          outcome fired = Returned (Some err)
          ∧ effects fired = [Formatted; Wrote formatted.1])
     ∧ (formatted.2 = None →
        (Write w formatted.1).2 = None →
        outcome fired = Returned None
        ∧ effects fired = [Formatted; Wrote formatted.1]))
  ∧ (∀ (h : Legacy.LegacyHook) (entry : logrus.Entry) c,
       Legacy.conn h = Some c →
       let fired := Legacy.Fire h entry in
       let formatted :=
         FormatWithPrefix (mkLogstashFormatter (Legacy.appName h))
           (merged (Legacy.alwaysSentFields h) entry)
           (Legacy.hookOnlyPrefix h) in
       (∀ err, formatted.2 = Some err →
          outcome fired = Returned (Some err) ∧ effects fired = [Formatted])
       ∧ (∀ err, formatted.2 = None →
            (Write c formatted.1).2 = Some err →
            outcome fired = Returned (Some err)
            ∧ effects fired = [Formatted; Wrote formatted.1])
       ∧ (formatted.2 = None →
          (Write c formatted.1).2 = None →
          outcome fired = Returned None
          ∧ effects fired = [Formatted; Wrote formatted.1])).
Proof.
  split.
  - intros h entry f w Hf Hw fired formatted. subst fired formatted.
    rewrite Fire_unfold, Hf, Hw. simpl.
    destruct (f (merged (ctx h) entry)) as [dataBytes [e|]]; simpl.
    + repeat split; intros; simplify_eq; done.
    + repeat split; intros; simplify_eq; try done; congruence.
  - intros h entry c Hc fired formatted. subst fired formatted.
    unfold Legacy.Fire, Legacy.defer. simpl.
    rewrite Legacy_Fire_body_unfold, Hc. simpl.
    destruct (FormatWithPrefix _ _ _) as [dataBytes [e|]]; simpl.
    + repeat split; intros; simplify_eq; done.
    + repeat split; intros; simplify_eq; try done; congruence.
Qed.

Lemma Fire_returns_first_error_witness :
  (outcome (Fire (mkHook (Some (failer_Write None)) ∅
                    (Some (failer_Format (Some (errors_New "format error")))))
              (logrus.mkEntry ∅ time.zero logrus.PanicLevel EmptyString))
   = Returned (Some (errors_New "format error")))
  ∧ (outcome (Fire (mkHook (Some (failer_Write (Some (errors_New "write error"))))
                      ∅ (Some (failer_Format None)))
                (logrus.mkEntry ∅ time.zero logrus.PanicLevel EmptyString))
     = Returned (Some (errors_New "write error")))
  ∧ (outcome (Fire (mkHook (Some buffer) ∅ (Some (failer_Format None)))
                (logrus.mkEntry ∅ time.zero logrus.PanicLevel EmptyString))
     = Returned None)
  ∧ (outcome (@Legacy.Fire unformattable
                (Legacy.mkLegacyHook (Some buffer) "app" ∅ EmptyString)
                (logrus.mkEntry ∅ time.zero logrus.PanicLevel EmptyString))
     = Returned (Some (errors_New "format error"))).
Proof.
  split; [|split; [|split]].
  - refine (proj1 (proj1 (proj1 (@Fire_returns_first_error loopback)
              (mkHook (Some (failer_Write None)) ∅
                 (Some (failer_Format (Some (errors_New "format error")))))
              _ _ _ eq_refl eq_refl) _ _)); reflexivity.
  - refine (proj1 (proj1 (proj2 (proj1 (@Fire_returns_first_error loopback)
              (mkHook (Some (failer_Write (Some (errors_New "write error"))))
                 ∅ (Some (failer_Format None)))
              _ _ _ eq_refl eq_refl)) _ _ _)); reflexivity.
  - refine (proj1 (proj2 (proj2 (proj1 (@Fire_returns_first_error loopback)
              (mkHook (Some buffer) ∅ (Some (failer_Format None)))
              _ _ _ eq_refl eq_refl)) _ _)); reflexivity.
  - refine (proj1 (proj1 (proj2 (@Fire_returns_first_error unformattable)
              (Legacy.mkLegacyHook (Some buffer) "app" ∅ EmptyString)
              _ _ eq_refl) _ _)); reflexivity.
Defined.

(** ** Levels *)

(** C7. [Levels] of both hooks is the list of the six severities, in the
    order panic, fatal, error, warn, info, debug; every severity occurs in it,
    once, whatever the hook.  [Fire] itself filters no severity: an entry of
    any level is handed to the formatter (of a hook that has one; of a legacy
    hook that has a connection). *)
Theorem Levels_all_six `{Externals} :
  (∀ h : Hook,
     Levels h = [ logrus.PanicLevel; logrus.FatalLevel; logrus.ErrorLevel;
                  logrus.WarnLevel; logrus.InfoLevel; logrus.DebugLevel ])
  ∧ (∀ h : Legacy.LegacyHook,
       Legacy.Levels h
       = [ logrus.PanicLevel; logrus.FatalLevel; logrus.ErrorLevel;
           logrus.WarnLevel; logrus.InfoLevel; logrus.DebugLevel ])
  ∧ (∀ (h : Hook) (l : logrus.Level), l ∈ Levels h)
  ∧ (∀ (h : Legacy.LegacyHook) (l : logrus.Level), l ∈ Legacy.Levels h)
  ∧ (∀ h : Hook, NoDup (Levels h) ∧ length (Levels h) = 6)
  ∧ (∀ h : Legacy.LegacyHook,
       NoDup (Legacy.Levels h) ∧ length (Legacy.Levels h) = 6)
  ∧ (∀ (h : Hook) (entry : logrus.Entry) f,
       formatter h = Some f → head (effects (Fire h entry)) = Some Formatted)
  ∧ (∀ (h : Legacy.LegacyHook) (entry : logrus.Entry) c,
       Legacy.conn h = Some c →
       head (effects (Legacy.Fire h entry)) = Some Formatted).
Proof.
  assert (∀ (h : Hook) (entry : logrus.Entry) f,
            formatter h = Some f →
            head (effects (Fire h entry)) = Some Formatted) as Hfire.
  { intros h entry f Hf. rewrite Fire_unfold, Hf. simpl.
    destruct (f (merged (ctx h) entry)) as [dataBytes [err|]]; [done|].
    by destruct (conn h). }
  assert (∀ (h : Legacy.LegacyHook) (entry : logrus.Entry) c,
            Legacy.conn h = Some c →
            head (effects (Legacy.Fire h entry)) = Some Formatted) as Hlegacy.
  { intros h entry c Hc. unfold Legacy.Fire, Legacy.defer. simpl.
    rewrite Legacy_Fire_body_unfold, Hc. simpl.
    by destruct (FormatWithPrefix _ _ _) as [dataBytes [err|]]. }
  assert (∀ l : logrus.Level,
            l ∈ [ logrus.PanicLevel; logrus.FatalLevel; logrus.ErrorLevel;
                  logrus.WarnLevel; logrus.InfoLevel; logrus.DebugLevel ])
    as Hall.
  { intros l. rewrite !elem_of_cons. destruct l; auto 10. }
  assert (NoDup [ logrus.PanicLevel; logrus.FatalLevel; logrus.ErrorLevel;
                  logrus.WarnLevel; logrus.InfoLevel; logrus.DebugLevel ])
    as Hnodup.
  { repeat (apply NoDup_cons; split;
            [rewrite ?elem_of_cons, elem_of_nil; intuition discriminate|]).
    apply NoDup_nil_2. }
  repeat split; done.
Qed.

Lemma Levels_all_six_witness :
  head (effects (Fire (mkHook (Some buffer) ∅ (Some (failer_Format None)))
                   (logrus.mkEntry ∅ time.zero logrus.DebugLevel "hello")))
  = Some Formatted
  ∧ head (effects (@Legacy.Fire loopback
                     (Legacy.mkLegacyHook (Some buffer) "app" ∅ EmptyString)
                     (logrus.mkEntry ∅ time.zero logrus.DebugLevel "hello")))
    = Some Formatted.
Proof.
  pose proof (@Levels_all_six loopback) as (_ & _ & _ & _ & _ & _ & Hf & Hl).
  split.
  - exact (Hf (mkHook (Some buffer) ∅ (Some (failer_Format None))) _ _ eq_refl).
  - exact (Hl (Legacy.mkLegacyHook (Some buffer) "app" ∅ EmptyString) _ _
             eq_refl).
Defined.

(** ** The default formatter *)

Lemma logstash_fields_lookup (appName version : string) (e : logrus.Entry)
    (k : string) :
  logstash_fields appName version e !! k =
    if decide (k = "@version") then Some (VString version)
    else if decide (k = "type") then Some (VString appName)
    else if decide (k = "@timestamp")
      then Some (VString (time.Format_RFC3339 (logrus.Time e)))
    else if decide (k = "@level")
      then Some (VString (logrus.Level_String (logrus.Level_ e)))
    else if decide (k = "@message") then Some (VString (logrus.Message e))
    else logrus.Data e !! k.
Proof.
  unfold logstash_fields.
  destruct (decide (k = "@version")) as [->|Hversion];
    [by rewrite lookup_insert_eq|].
  rewrite lookup_insert_ne by congruence.
  destruct (decide (k = "type")) as [->|Htype];
    [by rewrite lookup_insert_eq|].
  rewrite lookup_insert_ne by congruence.
  destruct (decide (k = "@timestamp")) as [->|Htimestamp];
    [by rewrite lookup_insert_eq|].
  rewrite lookup_insert_ne by congruence.
  destruct (decide (k = "@level")) as [->|Hlevel];
    [by rewrite lookup_insert_eq|].
  rewrite lookup_insert_ne by congruence.
  destruct (decide (k = "@message")) as [->|Hmessage];
    [by rewrite lookup_insert_eq|].
  by rewrite lookup_insert_ne by congruence.
Qed.

(** C6. The field mapping the default formatter serializes for the entry
    with fields id=a1, level panic, message "hello world" and the zero
    timestamp, under application name test1, is exactly the object with the
    six keys id, [@message], [@level], [@timestamp], type and [@version]; the
    formatter's bytes are the serialization of that object followed by a
    newline.  [New] binds the default formatter to schema version 1 whenever an
    application name is given, and for every entry the formatter emits the
    entry's fields plus the five reserved keys, which no entry field
    overrides. *)
Theorem default_formatter_round_trip `{Externals} :
  let entry :=
    logrus.mkEntry {["id" := VString "a1"]} time.zero logrus.PanicLevel
      "hello world" in
  let record : gmap string Value :=
    {[ "id" := VString "a1";
       "@message" := VString "hello world";
       "@level" := VString "panic";
       "@timestamp" := VString "0001-01-01T00:00:00Z";
       "type" := VString "test1";
       "@version" := VString "1" ]} in
  logstash_fields "test1" "1" entry = record
  ∧ defaultFormatter "test1" "1" entry
    = match json_Marshal record with
      | (serialized, None) => (serialized +:+ newline, None)
      | (_, Some err) => (EmptyString, Some err)
      end
  ∧ (∀ opts h, AppName opts ≠ EmptyString → New opts = inl h →
       formatter h = Some (defaultFormatter (AppName opts) "1"))
  ∧ (∀ appName e,
       let emitted := logstash_fields appName "1" e in
       emitted !! "@version" = Some (VString "1")
       ∧ emitted !! "type" = Some (VString appName)
       ∧ emitted !! "@timestamp"
         = Some (VString (time.Format_RFC3339 (logrus.Time e)))
       ∧ emitted !! "@level"
         = Some (VString (logrus.Level_String (logrus.Level_ e)))
       ∧ emitted !! "@message" = Some (VString (logrus.Message e))
       ∧ ∀ k, k ∉ ["@version"; "type"; "@timestamp"; "@level"; "@message"] →
              emitted !! k = logrus.Data e !! k).
Proof.
  intros entry record.
  assert (logstash_fields "test1" "1" entry = record) as Hrecord
    by (vm_compute; reflexivity).
  split; [done|]. split; [unfold defaultFormatter; by rewrite Hrecord|]. split.
  - intros opts h Happ HNew.
    destruct (validOptions opts) as [err|] eqn:Hv.
    { by rewrite (New_invalid opts err Hv) in HNew. }
    rewrite (New_valid opts Hv) in HNew.
    apply eqb_empty_false in Happ. rewrite Happ in HNew. simpl in HNew.
    destruct (is_nil (Conn opts)); [destruct (net_Dial _ _)|]; by simplify_eq.
  - intros appName e emitted. subst emitted.
    repeat split; try (by rewrite logstash_fields_lookup).
    intros k Hk. rewrite logstash_fields_lookup.
    rewrite !not_elem_of_cons in Hk.
    repeat (case_decide; [tauto|]). done.
Qed.

Lemma default_formatter_round_trip_witness :
  @New loopback
    (mkOptions (Some buffer) EmptyString EmptyString "test1" None None)
  = inl (mkHook (Some buffer) ∅ (Some (@defaultFormatter loopback "test1" "1")))
  ∧ formatter
      (mkHook (Some buffer) ∅ (Some (@defaultFormatter loopback "test1" "1")))
    = Some (@defaultFormatter loopback "test1" "1").
Proof.
  split; [reflexivity|].
  refine (proj1 (proj2 (proj2 (@default_formatter_round_trip loopback)))
            (mkOptions (Some buffer) EmptyString EmptyString "test1" None None)
            _ _ _); [discriminate | reflexivity].
Defined.

(** ** The package's tests, replayed on the embedding *)

(** [TestValidOptions], row by row. *)
Example TestValidOptions :
  map validOptions
    [ mkOptions None EmptyString EmptyString EmptyString None None;
      mkOptions (Some buffer) EmptyString EmptyString EmptyString None None;
      mkOptions None "udp" "localhost:8989" EmptyString None None;
      mkOptions None EmptyString "localhost:8989" EmptyString None None;
      mkOptions None "tcp" EmptyString EmptyString None None;
      mkOptions (Some buffer) "tcp" EmptyString EmptyString None None;
      mkOptions (Some buffer) EmptyString "localhost" EmptyString None None;
      mkOptions (Some buffer) EmptyString EmptyString "bla" None
        (Some (failer_Format None)) ]
  = [ Some (errors_New "Missing connection details");
      None;
      None;
      Some (errors_New "Missing connection details");
      Some (errors_New "Missing connection details");
      Some (errors_New "Specify Conn or Address and Protocol");
      Some (errors_New "Specify Conn or Address and Protocol");
      Some (errors_New "Specify AppName or Formatter") ].
Proof. reflexivity. Qed.

(** [TestHookFire], first row: the static field [f1] joins the entry's [id],
    and the default formatter serializes both with the reserved keys. *)
Example TestHookFire_static_field_added :
  let entry :=
    logrus.mkEntry {["id" := VString "a1"]} time.zero logrus.PanicLevel
      "hello world" in
  let h := mkHook (Some buffer) {["f1" := VInt 1]}
             (Some (@defaultFormatter loopback "test1" "1")) in
  @New loopback
    (mkOptions (Some buffer) EmptyString EmptyString "test1"
       (Some {["f1" := VInt 1]}) None) = inl h
  ∧ outcome (Fire h entry) = Returned None
  ∧ logstash_fields "test1" "1" (entry_after (Fire h entry))
    = {[ "id" := VString "a1";
         "f1" := VInt 1;
         "@message" := VString "hello world";
         "@level" := VString "panic";
         "@timestamp" := VString "0001-01-01T00:00:00Z";
         "type" := VString "test1";
         "@version" := VString "1" ]}.
Proof. repeat split; vm_compute; reflexivity. Qed.

(** [TestHookFire], second row: the entry's own [f1] wins over the static
    one. *)
Example TestHookFire_entry_field_kept :
  let entry :=
    logrus.mkEntry {["f1" := VString "a2"]} time.zero logrus.InfoLevel
      "world" in
  let h := mkHook (Some buffer) {["f1" := VInt 1]}
             (Some (@defaultFormatter loopback "test2" "1")) in
  outcome (Fire h entry) = Returned None
  ∧ logstash_fields "test2" "1" (entry_after (Fire h entry))
    = {[ "f1" := VString "a2";
         "@message" := VString "world";
         "@level" := VString "info";
         "@timestamp" := VString "0001-01-01T00:00:00Z";
         "type" := VString "test2";
         "@version" := VString "1" ]}.
Proof. repeat split; vm_compute; reflexivity. Qed.

(** * Further properties of the code *)

(** ** Iteration order *)

(** X1. The merge loop of [Fire] does not depend on the order in which Go
    enumerates the static fields: visiting them in any order leaves the field
    mapping that [Fire] leaves, for the options-based hook and for the legacy
    hook (before its deferred filter). *)
Theorem Fire_merge_any_order `{Externals} :
  (∀ (h : Hook) (entry : logrus.Entry) kvs,
     kvs ≡ₚ map_to_list (ctx h) →
     merge_missing kvs (logrus.Data entry)
     = logrus.Data (entry_after (Fire h entry)))
  ∧ (∀ (h : Legacy.LegacyHook) (entry : logrus.Entry) kvs,
       kvs ≡ₚ map_to_list (Legacy.alwaysSentFields h) →
       merge_missing kvs (logrus.Data entry)
       = logrus.Data (entry_after (Legacy.Fire_body h entry))).
Proof.
  split.
  - intros h entry kvs Hperm.
    by rewrite Fire_entry_after, (merge_missing_union (ctx h)).
  - intros h entry kvs Hperm.
    by rewrite Legacy_Fire_body_entry_after,
      (merge_missing_union (Legacy.alwaysSentFields h)).
Qed.

Lemma Fire_merge_any_order_witness :
  merge_missing
    (reverse (map_to_list
                ({["f1" := VInt 1; "f2" := VInt 2; "id" := VInt 3]}
                   : gmap string Value)))
    {["id" := VString "a1"]}
  = logrus.Data (entry_after
      (Fire (mkHook (Some buffer)
               {["f1" := VInt 1; "f2" := VInt 2; "id" := VInt 3]} None)
         (logrus.mkEntry {["id" := VString "a1"]} time.zero logrus.InfoLevel
            "hello"))).
Proof.
  refine (proj1 (@Fire_merge_any_order loopback)
            (mkHook (Some buffer)
               {["f1" := VInt 1; "f2" := VInt 2; "id" := VInt 3]} None)
            (logrus.mkEntry {["id" := VString "a1"]} time.zero logrus.InfoLevel
               "hello") _ _).
  apply reverse_Permutation.
Defined.

(** X2. The deleting loop of [filterHookOnly] does not depend on the order in
    which Go enumerates the entry's keys, deleting while it ranges: in any
    order it leaves exactly the fields whose key does not start with the
    prefix.  So under a non-empty prefix [filterHookOnly] computes that
    filter of the entry's fields. *)
Theorem filterHookOnly_is_filter :
  (∀ prefix (data : gmap string Value) keys,
     keys ≡ₚ (map_to_list data).*1 →
     delete_prefixed prefix keys data = filter (kept prefix) data)
  ∧ (∀ (h : Legacy.LegacyHook) (entry : logrus.Entry),
       Legacy.hookOnlyPrefix h ≠ EmptyString →
       logrus.Data (Legacy.filterHookOnly h entry)
       = filter (kept (Legacy.hookOnlyPrefix h)) (logrus.Data entry)).
Proof.
  assert (∀ prefix (data : gmap string Value) keys,
            keys ≡ₚ (map_to_list data).*1 →
            delete_prefixed prefix keys data = filter (kept prefix) data)
    as Hloop.
  { intros prefix data keys Hperm. apply map_eq; intros k.
    rewrite delete_prefixed_range by done.
    destruct (filter (kept prefix) data !! k) as [x|] eqn:Hfilter.
    - apply map_lookup_filter_Some in Hfilter as [Hdata Hk].
      unfold kept in Hk. simpl in Hk. by rewrite Hk.
    - apply map_lookup_filter_None in Hfilter as [Hdata|Hk].
      + rewrite Hdata. by destruct (strings_HasPrefix k prefix).
      + destruct (data !! k) as [x|] eqn:Hdata;
          [|by destruct (strings_HasPrefix k prefix)].
        specialize (Hk x eq_refl). unfold kept in Hk. simpl in Hk.
        by destruct (strings_HasPrefix k prefix). }
  split; [done|].
  intros h entry Hprefix. unfold Legacy.filterHookOnly.
  apply eqb_empty_false in Hprefix. rewrite Hprefix. simpl. by apply Hloop.
Qed.

Lemma filterHookOnly_is_filter_witness :
  logrus.Data
    (Legacy.filterHookOnly (Legacy.NewFilterHookWithPrefix "_")
       (logrus.mkEntry {["_hostname" := VString "h1"; "status" := VString "up"]}
          time.zero logrus.InfoLevel "hello"))
  = filter (kept "_")
      ({["_hostname" := VString "h1"; "status" := VString "up"]}
         : gmap string Value).
Proof.
  refine (proj2 filterHookOnly_is_filter
            (Legacy.NewFilterHookWithPrefix "_") _ _).
  discriminate.
Defined.

(** ** What [Fire] changes, and what it leaves *)

Lemma filterHookOnly_rest (h : Legacy.LegacyHook) (entry : logrus.Entry) :
  logrus.Time (Legacy.filterHookOnly h entry) = logrus.Time entry
  ∧ logrus.Level_ (Legacy.filterHookOnly h entry) = logrus.Level_ entry
  ∧ logrus.Message (Legacy.filterHookOnly h entry) = logrus.Message entry.
Proof.
  unfold Legacy.filterHookOnly.
  by destruct (negb (String.eqb (Legacy.hookOnlyPrefix h) EmptyString)).
Qed.

Lemma entry_ext (e1 e2 : logrus.Entry) :
  logrus.Data e1 = logrus.Data e2 → logrus.Time e1 = logrus.Time e2 →
  logrus.Level_ e1 = logrus.Level_ e2 → logrus.Message e1 = logrus.Message e2 →
  e1 = e2.
Proof. destruct e1, e2; simpl; by intros -> -> -> ->. Qed.

Lemma Legacy_Fire_rest `{Externals} (h : Legacy.LegacyHook)
    (entry : logrus.Entry) :
  logrus.Time (entry_after (Legacy.Fire h entry)) = logrus.Time entry
  ∧ logrus.Level_ (entry_after (Legacy.Fire h entry)) = logrus.Level_ entry
  ∧ logrus.Message (entry_after (Legacy.Fire h entry)) = logrus.Message entry.
Proof.
  rewrite Legacy_Fire_entry_after.
  by destruct (filterHookOnly_rest h (merged (Legacy.alwaysSentFields h) entry))
    as (-> & -> & ->).
Qed.

(** X3. [Fire] changes nothing of the entry but its field mapping: time,
    level and message are as before, for both hooks.  After [Hook.Fire] the
    entry's keys are its former keys and those of the static fields, and the
    former mapping is contained in the new one; after [LegacyHook.Fire] every
    field of the entry comes from the entry or from the static fields. *)
Theorem Fire_touches_fields_only `{Externals} :
  (∀ (h : Hook) (entry : logrus.Entry),
     let after := entry_after (Fire h entry) in
     logrus.Time after = logrus.Time entry
     ∧ logrus.Level_ after = logrus.Level_ entry
     ∧ logrus.Message after = logrus.Message entry
     ∧ dom (logrus.Data after) = dom (logrus.Data entry) ∪ dom (ctx h)
     ∧ logrus.Data entry ⊆ logrus.Data after)
  ∧ (∀ (h : Legacy.LegacyHook) (entry : logrus.Entry),
       let after := entry_after (Legacy.Fire h entry) in
       logrus.Time after = logrus.Time entry
       ∧ logrus.Level_ after = logrus.Level_ entry
       ∧ logrus.Message after = logrus.Message entry
       ∧ logrus.Data after
         ⊆ logrus.Data entry ∪ Legacy.alwaysSentFields h).
Proof.
  split.
  - intros h entry after. subst after. rewrite Fire_entry_after.
    unfold merged. simpl. repeat split; try done.
    + apply dom_union_L.
    + apply map_union_subseteq_l.
  - intros h entry after. subst after.
    destruct (Legacy_Fire_rest h entry) as (-> & -> & ->).
    repeat split; try done.
    apply map_subseteq_spec. intros k v.
    rewrite Legacy_Fire_entry_after, filterHookOnly_lookup.
    by destruct (_ && _).
Qed.

(** X4. Firing a hook again on the entry it has just handled changes nothing
    more: the entry after the second [Fire] is the entry after the first, for
    both hooks. *)
Theorem Fire_twice_entry `{Externals} :
  (∀ (h : Hook) (entry : logrus.Entry),
     entry_after (Fire h (entry_after (Fire h entry)))
     = entry_after (Fire h entry))
  ∧ (∀ (h : Legacy.LegacyHook) (entry : logrus.Entry),
       entry_after (Legacy.Fire h (entry_after (Legacy.Fire h entry)))
       = entry_after (Legacy.Fire h entry)).
Proof.
  split.
  - intros h entry. rewrite !Fire_entry_after. unfold merged. simpl.
    f_equal. by rewrite <- (assoc_L (∪)), (idemp_L (∪)).
  - intros h entry. apply entry_ext.
    + apply map_eq; intros k.
      rewrite (Legacy_Fire_lookup h (entry_after _)), merged_lookup.
      rewrite !Legacy_Fire_lookup, merged_lookup.
      destruct (hook_only h k); [done|].
      by destruct (logrus.Data entry !! k), (Legacy.alwaysSentFields h !! k).
    + apply Legacy_Fire_rest.
    + apply Legacy_Fire_rest.
    + apply Legacy_Fire_rest.
Qed.

(** X5. [filterHookOnly] only removes fields, leaves time, level and message,
    and filtering an entry that has been filtered changes nothing. *)
Theorem filterHookOnly_idempotent (h : Legacy.LegacyHook)
    (entry : logrus.Entry) :
  Legacy.filterHookOnly h (Legacy.filterHookOnly h entry)
  = Legacy.filterHookOnly h entry
  ∧ logrus.Data (Legacy.filterHookOnly h entry) ⊆ logrus.Data entry
  ∧ logrus.Time (Legacy.filterHookOnly h entry) = logrus.Time entry
  ∧ logrus.Level_ (Legacy.filterHookOnly h entry) = logrus.Level_ entry
  ∧ logrus.Message (Legacy.filterHookOnly h entry) = logrus.Message entry.
Proof.
  split; [|split; [|apply filterHookOnly_rest]].
  - apply entry_ext.
    + apply map_eq; intros k. rewrite !filterHookOnly_lookup.
      by destruct (_ && _).
    + by rewrite !(proj1 (filterHookOnly_rest _ _)).
    + by rewrite !(proj1 (proj2 (filterHookOnly_rest _ _))).
    + by rewrite !(proj2 (proj2 (filterHookOnly_rest _ _))).
  - apply map_subseteq_spec. intros k v. rewrite filterHookOnly_lookup.
    by destruct (_ && _).
Qed.

(** ** Construction *)

(** X6. [New] fails in exactly two ways: with the validator's error, or,
    when the options are valid and no writer is supplied, with the error of
    [net.Dial].  With a writer supplied and valid options it succeeds, whatever
    [net.Dial] would do, and the hook writes to that writer. *)
Theorem New_failures `{Externals} (opts : Options) :
  (∀ err, New opts = inr err ↔
     validOptions opts = Some err
     ∨ (validOptions opts = None ∧ Conn opts = None
        ∧ net_Dial (Protocol opts) (Address opts) = inr err))
  ∧ (∀ w, Conn opts = Some w → validOptions opts = None →
       ∃ h, New opts = inl h ∧ conn h = Some w).
Proof.
  destruct (validOptions opts) as [verr|] eqn:Hv.
  - rewrite (New_invalid opts verr Hv). split; [|done].
    intros err. split.
    + intros [= ->]. by left.
    + intros [[= ->]|[? _]]; done.
  - rewrite (New_valid opts Hv). split.
    + intros err. destruct (Conn opts) as [w|]; simpl.
      * split; [done|]. intros [?|(_ & ? & _)]; done.
      * destruct (net_Dial _ _) as [c|derr]; split; try done.
        -- intros [?|(_ & _ & ?)]; done.
        -- intros [= ->]. by right.
        -- intros [?|(_ & _ & [= ->])]; done.
    + intros w Hw _. rewrite Hw. simpl. eauto.
Qed.

Lemma New_failures_witness :
  @New unreachable
    (mkOptions None "tcp" "172.17.11.1:9090" EmptyString None None)
  = inr (errors_New "no route to host")
  ∧ (∃ h, @New unreachable
            (mkOptions (Some buffer) EmptyString EmptyString "app" None None)
          = inl h ∧ conn h = Some buffer).
Proof.
  split.
  - apply (proj1 (@New_failures unreachable _)). right. repeat split.
  - apply (proj2 (@New_failures unreachable _)); reflexivity.
Defined.

(** X7. A hook returned by [New] has a connection: the supplied writer, or
    else the one [net.Dial] yielded for the protocol and address.  Its static
    fields are the options' fields, the empty mapping when none were given.
    Its formatter is the options' formatter when no application name is
    given. *)
Theorem New_hook_contents `{Externals} (opts : Options) (h : Hook) :
  New opts = inl h →
  (match Conn opts with
   | Some w => conn h = Some w
   | None => ∃ c, net_Dial (Protocol opts) (Address opts) = inl c
                  ∧ conn h = Some c
   end)
  ∧ ctx h = default ∅ (Fields opts)
  ∧ (AppName opts = EmptyString → formatter h = Formatter opts).
Proof.
  intros HNew.
  destruct (validOptions opts) as [verr|] eqn:Hv.
  { by rewrite (New_invalid opts verr Hv) in HNew. }
  rewrite (New_valid opts Hv) in HNew.
  destruct (Conn opts) as [w|]; simpl in HNew.
  - simplify_eq. simpl. repeat split.
    intros Happ. by rewrite Happ.
  - destruct (net_Dial _ _) as [c|derr]; [|done].
    simplify_eq. simpl. repeat split; [by exists c|].
    intros Happ. by rewrite Happ.
Qed.

Lemma New_hook_contents_witness :
  conn (mkHook (Some buffer) {["id" := VString "12"]}
          (Some (failer_Format None))) = Some buffer
  ∧ ctx (mkHook (Some buffer) {["id" := VString "12"]}
           (Some (failer_Format None))) = {["id" := VString "12"]}.
Proof.
  pose proof (@New_hook_contents loopback
                (mkOptions (Some buffer) EmptyString EmptyString EmptyString
                   (Some {["id" := VString "12"]}) (Some (failer_Format None)))
                (mkHook (Some buffer) {["id" := VString "12"]}
                   (Some (failer_Format None))) eq_refl) as (Hconn & Hctx & _).
  split; [exact Hconn | exact Hctx].
Defined.





(** ** The legacy hook's setters *)






(** X12. [WithPrefix] puts a new prefix in force and changes nothing else of
    the hook: the next [Fire] removes the keys that start with the new prefix
    when it is not empty, and no key when it is; keys that start only with the
    former prefix are no longer removed. *)
Theorem WithPrefix_then_Fire `{Externals} (h : Legacy.LegacyHook)
    (prefix : string) (entry : logrus.Entry) :
  (∀ k,
     logrus.Data (entry_after (Legacy.Fire (Legacy.WithPrefix h prefix) entry))
       !! k
     = if negb (String.eqb prefix EmptyString) && strings_HasPrefix k prefix
       then None
       else logrus.Data (merged (Legacy.alwaysSentFields h) entry) !! k)
  ∧ (prefix = EmptyString →
     entry_after (Legacy.Fire (Legacy.WithPrefix h prefix) entry)
     = merged (Legacy.alwaysSentFields h) entry)
  ∧ Legacy.conn (Legacy.WithPrefix h prefix) = Legacy.conn h
  ∧ Legacy.appName (Legacy.WithPrefix h prefix) = Legacy.appName h
  ∧ Legacy.alwaysSentFields (Legacy.WithPrefix h prefix)
    = Legacy.alwaysSentFields h
  ∧ Legacy.WithPrefix (Legacy.WithPrefix h prefix) (Legacy.hookOnlyPrefix h) = h.
Proof.
  split; [intros k; by rewrite Legacy_Fire_lookup|].
  split.
  - intros ->. rewrite Legacy_Fire_entry_after.
    unfold Legacy.filterHookOnly. done.
  - repeat split. by destruct h.
Qed.

Lemma WithPrefix_then_Fire_witness :
  entry_after
    (@Legacy.Fire loopback
       (Legacy.WithPrefix (Legacy.NewFilterHookWithPrefix "_") EmptyString)
       (logrus.mkEntry {["_hostname" := VString "h1"]} time.zero
          logrus.InfoLevel "hello"))
  = logrus.mkEntry {["_hostname" := VString "h1"]} time.zero logrus.InfoLevel
      "hello".
Proof.
  rewrite (proj1 (proj2 (@WithPrefix_then_Fire loopback
             (Legacy.NewFilterHookWithPrefix "_") EmptyString
             (logrus.mkEntry {["_hostname" := VString "h1"]} time.zero
                logrus.InfoLevel "hello"))) eq_refl).
  reflexivity.
Defined.

(** ** The legacy [Fire] *)

Lemma merged_empty (entry : logrus.Entry) : merged ∅ entry = entry.
Proof.
  unfold merged. rewrite (right_id_L ∅ (∪)). by destruct entry.
Qed.




(** X14. A legacy hook with a connection does what the options-based hook
    with the same connection, static fields and formatter does, followed by
    the deferred filter; with the empty prefix the two hooks do the same. *)
Theorem Legacy_Fire_as_Hook `{Externals} (h : Legacy.LegacyHook)
    (entry : logrus.Entry) :
  is_Some (Legacy.conn h) →
  Legacy.Fire h entry
  = Legacy.defer (Legacy.filterHookOnly h) (Fire (Legacy_as_Hook h) entry)
  ∧ (Legacy.hookOnlyPrefix h = EmptyString →
     Legacy.Fire h entry = Fire (Legacy_as_Hook h) entry).
Proof.
  intros [c Hc].
  assert (Legacy.Fire_body h entry = Fire (Legacy_as_Hook h) entry) as Hbody.
  { rewrite Legacy_Fire_body_unfold, Fire_unfold. simpl. rewrite Hc.
    destruct (FormatWithPrefix _ _ _) as [dataBytes [err|]]; done. }
  split.
  - unfold Legacy.Fire. by rewrite Hbody.
  - intros Hprefix. unfold Legacy.Fire, Legacy.defer. rewrite Hbody.
    unfold Legacy.filterHookOnly. rewrite Hprefix. simpl.
    by destruct (Fire (Legacy_as_Hook h) entry).
Qed.

Lemma Legacy_Fire_as_Hook_witness :
  @Legacy.Fire unformattable
    (Legacy.mkLegacyHook (Some buffer) "app" {["f1" := VInt 1]} EmptyString)
    (logrus.mkEntry {["id" := VString "a1"]} time.zero logrus.InfoLevel "hello")
  = Fire (@Legacy_as_Hook unformattable
            (Legacy.mkLegacyHook (Some buffer) "app" {["f1" := VInt 1]}
               EmptyString))
      (logrus.mkEntry {["id" := VString "a1"]} time.zero logrus.InfoLevel
         "hello").
Proof.
  refine (proj2 (@Legacy_Fire_as_Hook unformattable
            (Legacy.mkLegacyHook (Some buffer) "app" {["f1" := VInt 1]}
               EmptyString) _ _) eq_refl).
  by exists buffer.
Defined.

(** ** The legacy constructors *)

(** X15. The dialling constructors fail exactly when [net.Dial] fails, with
    its error.  Otherwise the hook holds the dialled connection, the given
    name, fields and prefix; [NewHook] and [NewHookWithFields] give the empty
    prefix, so [Fire] on their hooks removes nothing, and [Fire] on a hook of
    [NewHook] leaves the entry as it is. *)
Theorem Legacy_dialling_constructors `{Externals}
    (protocol address appName : string) (fields : gmap string Value)
    (prefix : string) :
  (∀ err, net_Dial protocol address = inr err →
     Legacy.NewHook protocol address appName = inr err
     ∧ Legacy.NewHookWithFields protocol address appName fields = inr err
     ∧ Legacy.NewHookWithFieldsAndPrefix protocol address appName fields
         prefix = inr err)
  ∧ (∀ c, net_Dial protocol address = inl c →
       Legacy.NewHook protocol address appName
       = inl (Legacy.mkLegacyHook (Some c) appName ∅ EmptyString)
       ∧ Legacy.NewHookWithFields protocol address appName fields
         = inl (Legacy.mkLegacyHook (Some c) appName fields EmptyString)
       ∧ Legacy.NewHookWithFieldsAndPrefix protocol address appName fields
           prefix
         = inl (Legacy.mkLegacyHook (Some c) appName fields prefix))
  ∧ (∀ h entry, Legacy.NewHook protocol address appName = inl h →
       entry_after (Legacy.Fire h entry) = entry)
  ∧ (∀ h entry,
       Legacy.NewHookWithFields protocol address appName fields = inl h →
       entry_after (Legacy.Fire h entry) = merged fields entry).
Proof.
  unfold Legacy.NewHook, Legacy.NewHookWithFields,
    Legacy.NewHookWithFieldsAndPrefix, Legacy.NewHookWithFieldsAndConnAndPrefix.
  split; [by intros err ->|]. split; [by intros c ->|].
  destruct (net_Dial protocol address) as [c|err]; [|done].
  split; intros h entry [= <-]; rewrite Legacy_Fire_entry_after;
    unfold Legacy.filterHookOnly; simpl; [apply merged_empty | done].
Qed.

Lemma Legacy_dialling_constructors_witness :
  @Legacy.NewHook unreachable "tcp" "172.17.0.2:9999" "myappName"
  = inr (errors_New "no route to host")
  ∧ @Legacy.NewHook loopback "tcp" "172.17.0.2:9999" "myappName"
    = inl (Legacy.mkLegacyHook (Some buffer) "myappName" ∅ EmptyString).
Proof.
  split.
  - refine (proj1 (proj1 (@Legacy_dialling_constructors unreachable
              "tcp" "172.17.0.2:9999" "myappName" ∅ EmptyString) _ _)).
    reflexivity.
  - refine (proj1 (proj1 (proj2 (@Legacy_dialling_constructors loopback
              "tcp" "172.17.0.2:9999" "myappName" ∅ EmptyString)) _ _)).
    reflexivity.
Defined.



(** ** Hooks in a chain *)

(** X17. When two options-based hooks fire in turn on the same entry, the
    entry ends with its own fields, then the static fields of the first hook,
    then those of the second: for a key the entry lacks and both hooks have,
    the hook that fires first decides the value. *)
Theorem Fire_chain (h1 h2 : Hook) (entry : logrus.Entry) :
  let after := entry_after (Fire h2 (entry_after (Fire h1 entry))) in
  logrus.Data after = logrus.Data entry ∪ ctx h1 ∪ ctx h2
  ∧ (∀ k v, logrus.Data entry !! k = None → ctx h1 !! k = Some v →
       logrus.Data after !! k = Some v)
  ∧ (∀ k v, logrus.Data entry !! k = None → ctx h1 !! k = None →
       ctx h2 !! k = Some v → logrus.Data after !! k = Some v).
Proof.
  intros after. subst after. rewrite !Fire_entry_after.
  split; [done|].
  split; intros k v; rewrite !merged_lookup.
  - by intros -> ->.
  - by intros -> -> ->.
Qed.

Lemma Fire_chain_witness :
  logrus.Data
    (entry_after
       (Fire (mkHook (Some buffer) {["env" := VString "second"]} None)
          (entry_after
             (Fire (mkHook (Some buffer) {["env" := VString "first"]} None)
                (logrus.mkEntry {["id" := VString "a1"]} time.zero
                   logrus.InfoLevel "hello"))))) !! "env"
  = Some (VString "first").
Proof.
  refine (proj1 (proj2 (Fire_chain
            (mkHook (Some buffer) {["env" := VString "first"]} None)
            (mkHook (Some buffer) {["env" := VString "second"]} None)
            (logrus.mkEntry {["id" := VString "a1"]} time.zero
               logrus.InfoLevel "hello"))) "env" (VString "first") _ _);
    reflexivity.
Defined.
